(** * The path-matching engine of [internal/model/matcher.go]

    A shallow embedding of the matchers of package [model] and of their
    constructors, followed by the properties the specification states
    about them.

    Conventions.
    - A Go [error] is an [option string]: [None] is [nil].
    - A Go [map[string]bool] is a [gmap string bool]; reading a missing
      key gives [false], as in Go.
    - A call that may panic has an [Outcome]: either it [Returns] a
      value or it [Panics] with the panic value.
    - A value of interface type [PathMatcher] is a value of one of the
      concrete types of the file, or of a type declared elsewhere that
      has the method(s); the latter are the [other...] constructors. *)

From Stdlib Require Import Ascii String.
From stdpp Require Import base option strings list gmap fin_maps.

Local Open Scope string_scope.
Local Open Scope list_scope.

(** ** Errors and panics *)

Definition error : Type := option string.
Definition nil : error := None.

Inductive Outcome (A : Type) : Type :=
| Returns (a : A)
| Panics (v : string).
Arguments Returns {A} a.
Arguments Panics {A} v.

(** A panic ends the function that called the panicking one. *)
Global Instance Outcome_bind : MBind Outcome := λ A B k o,
  match o with
  | Returns a => k a
  | Panics v => Panics v
  end.
Global Instance Outcome_ret : MRet Outcome := λ A a, Returns a.
Global Instance Outcome_fmap : FMap Outcome := λ A B f o,
  match o with
  | Returns a => Returns (f a)
  | Panics v => Panics v
  end.

(** ** What the file imports

    [path/filepath] and [internal/ospath] give the path functions,
    [github.com/gobwas/glob] the compiled patterns. *)

Class OsPath : Type := {
  (** [filepath.IsAbs] *)
  IsAbs : string → bool;
  (** [filepath.Join] of two elements *)
  Join : string → string → string;
  (** [ospath.IsChild dir file] *)
  IsChild : string → string → bool;
}.

Class GlobLib : Type := {
  Glob : Type;
  (** [glob.Compile]: the compiled pattern, or the error *)
  Compile : string → Glob + string;
  (** [g.Match] *)
  Match : Glob → string → bool;
}.

(** [glob.MustCompile] is [Compile], with a panic in place of the error. *)
Definition MustCompile `{GlobLib} (s : string) : Outcome Glob :=
  match Compile s with
  | inl g => Returns g
  | inr err => Panics err
  end.

(** ** The loop of the composite matchers

    [for _, t := range ms { ret, err := t.Matches(f, isDir); ... }],
    over the call [t.Matches(f, isDir)]. *)

Definition scan {A} (call : A → Outcome (bool * error)) : list A → Outcome (bool * error) :=
  fix go (ms : list A) : Outcome (bool * error) :=
    match ms with
    | [] => Returns (false, nil)
    | t :: rest =>
        r ← call t;
        let '(ret, err) := (r : bool * error) in
        match err with
        | Some e => Returns (false, Some e)
        | None => if ret then Returns (true, nil) else go rest
        end
    end.

(** [result := []string{}; for _, m := range ms { result = append(result, m.AsMatchPatterns()...) }] *)
Definition collect {A} (call : A → Outcome (list string)) : list A → list string → Outcome (list string) :=
  fix go (ms : list A) (result : list string) : Outcome (list string) :=
    match ms with
    | [] => Returns result
    | m :: rest => ps ← call m; go rest (result ++ ps)
    end.

Section Model.
Context {os : OsPath} {gl : GlobLib}.

(** ** Matchers *)

Local Unset Elimination Schemes.
Inductive PathMatcher : Type :=
| emptyMatcher
| fileMatcher (paths : gmap string bool)
| fileOrChildMatcher (paths : gmap string bool)
| globMatcher (globs : list Glob)
| CompositePathMatcher (Matchers : list PathMatcher)
(** a type declared elsewhere, with [Matches] only *)
| otherPathMatcher (matches : string → bool → Outcome (bool * error))
(** a value whose type also has [AsMatchPatterns] *)
| ofPatternMatcher (pm : PatternMatcher)
with PatternMatcher : Type :=
| CompositePatternMatcher (embedded : list PathMatcher) (Matchers : list PatternMatcher)
(** a type declared elsewhere, with [Matches] and [AsMatchPatterns] *)
| otherPatternMatcher (matches : string → bool → Outcome (bool * error))
                      (patterns : Outcome (list string)).
Local Set Elimination Schemes.

Definition EmptyMatcher : PathMatcher := emptyMatcher.

(** [m.paths[f]] *)
Definition index (paths : gmap string bool) (f : string) : bool :=
  default false (paths !! f).

(** [for path := range m.paths { if ospath.IsChild(path, f) { return true, nil } }] *)
Definition anyChild (paths : gmap string bool) (f : string) : bool :=
  existsb (fun kv => IsChild kv.1 f) (map_to_list paths).

Definition fileOrChildMatcher_Matches (paths : gmap string bool) (f : string) (isDir : bool)
  : bool * error :=
  if index paths f then (true, nil)
  else if anyChild paths f then (true, nil)
  else (false, nil).

Definition globMatcher_Matches (globs : list Glob) (f : string) (isDir : bool)
  : bool * error :=
  if existsb (fun g => Match g f) globs then (true, nil) else (false, nil).

Fixpoint Matches (m : PathMatcher) (f : string) (isDir : bool) {struct m}
  : Outcome (bool * error) :=
  match m with
  | emptyMatcher => Returns (false, nil)
  | fileMatcher paths => Returns (index paths f, nil)
  | fileOrChildMatcher paths => Returns (fileOrChildMatcher_Matches paths f isDir)
  | globMatcher globs => Returns (globMatcher_Matches globs f isDir)
  | CompositePathMatcher ms => scan (fun t => Matches t f isDir) ms
  | otherPathMatcher matches => matches f isDir
  | ofPatternMatcher pm => PatternMatcher_Matches pm f isDir
  end
with PatternMatcher_Matches (pm : PatternMatcher) (f : string) (isDir : bool) {struct pm}
  : Outcome (bool * error) :=
  match pm with
  | CompositePatternMatcher embedded _ => scan (fun t => Matches t f isDir) embedded
  | otherPatternMatcher matches _ => matches f isDir
  end.

Fixpoint AsMatchPatterns (pm : PatternMatcher) : Outcome (list string) :=
  match pm with
  | CompositePatternMatcher _ ms => collect AsMatchPatterns ms []
  | otherPatternMatcher _ patterns => patterns
  end.

(** ** Constructors *)

(** The body of the loop of [NewRelativeFileOrChildMatcher]. *)
Definition resolve (baseDir path : string) : string :=
  if negb (IsAbs path) then Join baseDir path else path.

Definition NewRelativeFileOrChildMatcher (baseDir : string) (paths : list string)
  : PathMatcher :=
  let pathMap :=
    foldl (fun pathMap path => <[resolve baseDir path := true]> pathMap) ∅ paths in
  fileOrChildMatcher pathMap.

Record PathSet : Type := NewPathSet { Paths : list string; BaseDirectory : string }.

Definition PathSet_Empty (ps : PathSet) : bool := bool_decide (length (Paths ps) = 0).

(** [for _, path := range paths { match, err := matcher.Matches(path, false); ... }] *)
Definition anyMatchLoop (call : string → Outcome (bool * error))
  : list string → Outcome (bool * string * error) :=
  fix go (paths : list string) : Outcome (bool * string * error) :=
    match paths with
    | [] => Returns (false, "", nil)
    | path :: rest =>
        r ← call path;
        let '(matched, err) := (r : bool * error) in
        match err with
        | Some e => Returns (false, "", Some e)
        | None => if matched then Returns (true, path, nil) else go rest
        end
    end.

Definition AnyMatch (ps : PathSet) (paths : list string) : Outcome (bool * string * error) :=
  let matcher := NewRelativeFileOrChildMatcher (BaseDirectory ps) (Paths ps) in
  anyMatchLoop (fun path => Matches matcher path false) paths.

(** [for _, g := range globs { ret.globs = append(ret.globs, glob.MustCompile(g)) }] *)
Fixpoint compileAll (globs : list string) (ret : list Glob) : Outcome (list Glob) :=
  match globs with
  | [] => Returns ret
  | g :: rest => c ← MustCompile g; compileAll rest (ret ++ [c])
  end.

Definition NewGlobMatcher (globs : list string) : Outcome PathMatcher :=
  ret ← compileAll globs []; Returns (globMatcher ret).

(** The type assertion [m.(CompositePatternMatcher)]: the value, when the
    dynamic type of [m] is the struct [CompositePatternMatcher]. *)
Definition assertCompositePatternMatcher (m : PathMatcher) : option PatternMatcher :=
  match m with
  | ofPatternMatcher (CompositePatternMatcher embedded ms) =>
      Some (CompositePatternMatcher embedded ms)
  | _ => None
  end.

(** The loop of [NewCompositeMatcher]: [None] when it returns [cMatcher],
    the filled [pMatchers] when it runs to its end. *)
Fixpoint fillPatternMatchers (matchers : list PathMatcher) : option (list PatternMatcher) :=
  match matchers with
  | [] => Some []
  | m :: rest =>
      match assertCompositePatternMatcher m with
      | None => None
      | Some pm =>
          match fillPatternMatchers rest with
          | None => None
          | Some pMatchers => Some (pm :: pMatchers)
          end
      end
  end.

Definition NewCompositeMatcher (matchers : list PathMatcher) : PathMatcher :=
  if bool_decide (length matchers = 0) then EmptyMatcher
  else
    let cMatcher := CompositePathMatcher matchers in
    match fillPatternMatchers matchers with
    | None => cMatcher
    | Some pMatchers => ofPatternMatcher (CompositePatternMatcher matchers pMatchers)
    end.

(** Whether a [PathMatcher] value also is a [PatternMatcher]: the
    assertion [m.(PatternMatcher)]. *)
Definition assertPatternMatcher (m : PathMatcher) : option PatternMatcher :=
  match m with
  | ofPatternMatcher pm => Some pm
  | _ => None
  end.

End Model.

(** ** Paths on Unix *)

Module Unix.

(** [strings.Split(s, "/")] *)
Fixpoint splitSlash (s : string) : list string :=
  match s with
  | EmptyString => [""]
  | String c rest =>
      if Ascii.eqb c "/"%char then "" :: splitSlash rest
      else
        match splitSlash rest with
        | [] => [String c ""]
        | seg :: segs => String c seg :: segs
        end
  end.

(** [strings.Join(segs, "/")] *)
Fixpoint joinSlash (segs : list string) : string :=
  match segs with
  | [] => ""
  | [seg] => seg
  | seg :: rest => seg +:+ "/" +:+ joinSlash rest
  end.

(** [filepath.IsAbs]: [strings.HasPrefix(path, "/")] *)
Definition IsAbs (path : string) : bool :=
  match path with
  | String c _ => Ascii.eqb c "/"%char
  | EmptyString => false
  end.

(** One name of the path, in [filepath.Clean]; [out] is the cleaned
    path so far, its last name first. *)
Definition cleanStep (rooted : bool) (out : list string) (seg : string) : list string :=
  if String.eqb seg "" then out
  else if String.eqb seg "." then out
  else if String.eqb seg ".." then
    match out with
    | top :: below => if String.eqb top ".." then seg :: out else below
    | [] => if rooted then [] else [seg]
    end
  else seg :: out.

(** [filepath.Clean] *)
Definition Clean (path : string) : string :=
  let rooted := IsAbs path in
  let out := rev (foldl (cleanStep rooted) [] (splitSlash path)) in
  if rooted then "/" +:+ joinSlash out
  else match out with [] => "." | _ => joinSlash out end.

(** [filepath.Join(a, b)] *)
Definition Join (a b : string) : string :=
  if negb (String.eqb a "") then Clean (a +:+ "/" +:+ b)
  else if negb (String.eqb b "") then Clean b
  else "".

(** The names of a path, separators dropped. *)
Definition segments (path : string) : list string :=
  filter (fun seg => seg ≠ "") (splitSlash path).

Fixpoint properPrefix (xs ys : list string) : bool :=
  match xs, ys with
  | [], [] => false
  | [], _ :: _ => true
  | _ :: _, [] => false
  | x :: xs', y :: ys' => String.eqb x y && properPrefix xs' ys'
  end.

(** Modelled from the spec: [ospath.IsChild], of package
    [internal/ospath]. Given two absolute paths, is the second a proper
    filesystem descendant of the first; the test is by path segments, not
    by string prefix, and does not depend on trailing separators. *)
Definition IsChild (dir file : string) : bool :=
  properPrefix (segments dir) (segments file).

#[global] Instance ospath : OsPath := Build_OsPath IsAbs Join IsChild.

End Unix.

(** ** A small pattern library

    An instance of [GlobLib] to run the model on: literals, [?], [*] and
    the character classes [[abc]] and [[!abc]]. As in gobwas/glob, with no
    separators given [*] also matches ['/'], and a class that is not
    closed is an error of [Compile]. *)

Module MiniGlob.

Inductive token : Type :=
| Text (c : ascii)
| Single
| Any
| Class (negated : bool) (chars : list ascii).

(** The characters of a class, up to its ["]"]; [None] at the end of
    the input. *)
Fixpoint lexClass (s : list ascii) : option (list ascii * list ascii) :=
  match s with
  | [] => None
  | c :: rest =>
      if Ascii.eqb c "]"%char then Some ([], rest)
      else '(chars, after) ← lexClass rest; Some (c :: chars, after)
  end.

Fixpoint lex (fuel : nat) (s : list ascii) : list token + string :=
  match fuel, s with
  | _, [] => inl []
  | O, _ :: _ => inr "pattern too long"
  | S fuel', c :: rest =>
      if Ascii.eqb c "*"%char then
        match lex fuel' rest with inl ts => inl (Any :: ts) | inr e => inr e end
      else if Ascii.eqb c "?"%char then
        match lex fuel' rest with inl ts => inl (Single :: ts) | inr e => inr e end
      else if Ascii.eqb c "["%char then
        let '(negated, body) :=
          match rest with
          | n :: body' => if Ascii.eqb n "!"%char then (true, body') else (false, rest)
          | [] => (false, rest)
          end in
        match lexClass body with
        | None => inr "unexpected end of input"
        | Some (chars, after) =>
            match lex fuel' after with
            | inl ts => inl (Class negated chars :: ts)
            | inr e => inr e
            end
        end
      else
        match lex fuel' rest with inl ts => inl (Text c :: ts) | inr e => inr e end
  end.

Definition Compile (s : string) : list token + string :=
  lex (String.length s) (list_ascii_of_string s).

Definition inClass (negated : bool) (chars : list ascii) (c : ascii) : bool :=
  xorb negated (existsb (Ascii.eqb c) chars).

Fixpoint matchTokens (ts : list token) : list ascii → bool :=
  match ts with
  | [] => fun s => match s with [] => true | _ :: _ => false end
  | Text c :: ts' =>
      fun s => match s with c' :: s' => Ascii.eqb c c' && matchTokens ts' s' | [] => false end
  | Single :: ts' =>
      fun s => match s with _ :: s' => matchTokens ts' s' | [] => false end
  | Class negated chars :: ts' =>
      fun s => match s with
               | c' :: s' => inClass negated chars c' && matchTokens ts' s'
               | [] => false
               end
  | Any :: ts' =>
      fix skip (s : list ascii) : bool :=
        matchTokens ts' s || match s with [] => false | _ :: s' => skip s' end
  end.

Definition Match (g : list token) (f : string) : bool :=
  matchTokens g (list_ascii_of_string f).

#[global] Instance globlib : GlobLib := Build_GlobLib (list token) Compile Match.

End MiniGlob.

(** ** [NewSimpleFileMatcher] *)

(** [filepath.Abs]: the absolute path, or the error of the lookup of the
    working directory. *)
Class FilepathAbs : Type := {
  Abs : string → string + string;
}.

(** [errors.Wrap(err, message)] of [github.com/pkg/errors], as the text of
    the error it returns. *)
Definition Wrap (err message : string) : string := message +:+ ": " +:+ err.

Section SimpleFileMatcher.
Context {gl : GlobLib} {fa : FilepathAbs}.

(** The loop of [NewSimpleFileMatcher], from the map filled so far. On an
    error it returns [fileMatcher{}], whose map is [nil]: a map that reads
    as the empty one. *)
Fixpoint fillPathMap (paths : list string) (pathMap : gmap string bool)
  : PathMatcher * error :=
  match paths with
  | [] => (fileMatcher pathMap, nil)
  | path :: rest =>
      match Abs path with
      | inr err => (fileMatcher ∅, Some (Wrap err "NewSimplePathMatcher"))
      | inl path' => fillPathMap rest (<[path' := true]> pathMap)
      end
  end.

Definition NewSimpleFileMatcher (paths : list string) : PathMatcher * error :=
  fillPathMap paths ∅.

End SimpleFileMatcher.

(** [filepath.Abs] on Unix, over what [os.Getwd] returns. *)
Module UnixAbs.

Definition Abs (getwd : string + string) (path : string) : string + string :=
  if Unix.IsAbs path then inl (Unix.Clean path)
  else
    match getwd with
    | inr err => inr err
    | inl wd => inl (Unix.Join wd path)
    end.

Definition inDirectory (wd : string) : FilepathAbs := Build_FilepathAbs (Abs (inl wd)).
Definition noDirectory (err : string) : FilepathAbs := Build_FilepathAbs (Abs (inr err)).

End UnixAbs.

(** ** The matchers made of the types of this file only *)

Section DeclaredHere.
Context {gl : GlobLib}.

(** No value of a type declared elsewhere occurs in the matcher. *)
Fixpoint declaredHere (m : PathMatcher) : bool :=
  match m with
  | emptyMatcher | fileMatcher _ | fileOrChildMatcher _ | globMatcher _ => true
  | CompositePathMatcher ms => forallb declaredHere ms
  | otherPathMatcher _ => false
  | ofPatternMatcher pm => patternDeclaredHere pm
  end
with patternDeclaredHere (pm : PatternMatcher) : bool :=
  match pm with
  | CompositePatternMatcher embedded ms =>
      forallb declaredHere embedded && forallb patternDeclaredHere ms
  | otherPatternMatcher _ _ => false
  end.

(** Induction over the two types at once, through the lists. *)
Section Induction.
Variables (P : PathMatcher → Prop) (Q : PatternMatcher → Prop).
Hypothesis Hempty : P emptyMatcher.
Hypothesis Hfile : ∀ paths, P (fileMatcher paths).
Hypothesis HfileOrChild : ∀ paths, P (fileOrChildMatcher paths).
Hypothesis Hglob : ∀ globs, P (globMatcher globs).
Hypothesis Hcomposite : ∀ ms, Forall P ms → P (CompositePathMatcher ms).
Hypothesis Hother : ∀ matches, P (otherPathMatcher matches).
Hypothesis Hof : ∀ pm, Q pm → P (ofPatternMatcher pm).
Hypothesis Hpattern :
  ∀ embedded ms, Forall P embedded → Forall Q ms → Q (CompositePatternMatcher embedded ms).
Hypothesis HotherPattern : ∀ matches patterns, Q (otherPatternMatcher matches patterns).

Fixpoint PathMatcher_induction (m : PathMatcher) : P m :=
  match m with
  | emptyMatcher => Hempty
  | fileMatcher paths => Hfile paths
  | fileOrChildMatcher paths => HfileOrChild paths
  | globMatcher globs => Hglob globs
  | CompositePathMatcher ms =>
      Hcomposite ms
        ((fix all (l : list PathMatcher) : Forall P l :=
            match l with
            | [] => Forall_nil_2 P
            | t :: l' => Forall_cons_2 P t l' (PathMatcher_induction t) (all l')
            end) ms)
  | otherPathMatcher matches => Hother matches
  | ofPatternMatcher pm => Hof pm (PatternMatcher_induction pm)
  end
with PatternMatcher_induction (pm : PatternMatcher) : Q pm :=
  match pm with
  | CompositePatternMatcher embedded ms =>
      Hpattern embedded ms
        ((fix all (l : list PathMatcher) : Forall P l :=
            match l with
            | [] => Forall_nil_2 P
            | t :: l' => Forall_cons_2 P t l' (PathMatcher_induction t) (all l')
            end) embedded)
        ((fix all (l : list PatternMatcher) : Forall Q l :=
            match l with
            | [] => Forall_nil_2 Q
            | t :: l' => Forall_cons_2 Q t l' (PatternMatcher_induction t) (all l')
            end) ms)
  | otherPatternMatcher matches patterns => HotherPattern matches patterns
  end.

End Induction.

End DeclaredHere.

(** * Properties *)

(** ** The models of the imported functions on examples *)

Example Clean_examples :
  map Unix.Clean ["abc//def"; "abc/./def"; "abc/def/.."; "abc/def/../.."; "/abc/def/../..";
                  "abc/def/../../.."; "/../abc"; "../../abc"; ""; "abc/"; "/"; "/r/baz"]
  = ["abc/def"; "abc/def"; "abc"; "."; "/"; ".."; "/abc"; "../../abc"; "."; "abc"; "/"; "/r/baz"].
Proof. vm_compute. reflexivity. Qed.

Example MiniGlob_examples :
  (λ '(g, f), match MiniGlob.Compile g with inl t => Some (MiniGlob.Match t f) | inr _ => None end)
    <$> [("*.go", "/x/main.go"); ("*.go", "/x/main.txt"); ("[", "x"); ("a[!bc]?", "ade");
         ("a[!bc]?", "abe"); ("[ab", "a")]
  = [Some true; Some false; None; Some true; Some false; None].
Proof. vm_compute. reflexivity. Qed.

(** ** The loops *)

Section Loops.
Context {A : Type}.

Lemma scan_skip (call : A → Outcome (bool * error)) (pre rest : list A) :
  Forall (λ t, call t = Returns (false, nil)) pre →
  scan call (pre ++ rest) = scan call rest.
Proof.
  induction 1 as [|t pre Ht _ IH]; [done|].
  cbn. rewrite Ht. cbn. exact IH.
Qed.

Lemma scan_hit (call : A → Outcome (bool * error)) (t : A) (rest : list A) :
  call t = Returns (true, nil) → scan call (t :: rest) = Returns (true, nil).
Proof. intros Ht. cbn. by rewrite Ht. Qed.

Lemma scan_error (call : A → Outcome (bool * error)) (t : A) (rest : list A) ret e :
  call t = Returns (ret, Some e) → scan call (t :: rest) = Returns (false, Some e).
Proof. intros Ht. cbn. by rewrite Ht. Qed.

Lemma scan_panic (call : A → Outcome (bool * error)) (t : A) (rest : list A) v :
  call t = Panics v → scan call (t :: rest) = Panics v.
Proof. intros Ht. cbn. by rewrite Ht. Qed.

Lemma scan_none (call : A → Outcome (bool * error)) (ms : list A) :
  Forall (λ t, call t = Returns (false, nil)) ms →
  scan call ms = Returns (false, nil).
Proof.
  intros Hall. rewrite <- (app_nil_r ms). by rewrite scan_skip.
Qed.

Lemma collect_acc (call : A → Outcome (list string)) (ms : list A) (outs : list (list string))
    (result : list string) :
  Forall2 (λ m ps, call m = Returns ps) ms outs →
  collect call ms result = Returns (result ++ concat outs).
Proof.
  intros Hall. revert result.
  induction Hall as [|m ps ms outs Hm _ IH]; intros result; cbn.
  - by rewrite app_nil_r.
  - rewrite Hm. cbn. rewrite IH. by rewrite app_assoc.
Qed.

Lemma collect_mapM (call : A → Outcome (list string)) (ms : list A) (result : list string) :
  collect call ms result = (λ outs, result ++ concat outs) <$> mapM call ms.
Proof.
  revert result. induction ms as [|m ms IH]; intros result; cbn.
  - by rewrite app_nil_r.
  - destruct (call m) as [ps|v]; cbn; [|done].
    rewrite IH. destruct (mapM call ms) as [outs|v]; cbn; [|done].
    by rewrite app_assoc.
Qed.

End Loops.

(** ** The matchers *)

Section Properties.
Context {os : OsPath} {gl : GlobLib}.

Lemma Matches_CompositePathMatcher (ms : list PathMatcher) f isDir :
  Matches (CompositePathMatcher ms) f isDir = scan (λ t, Matches t f isDir) ms.
Proof. reflexivity. Qed.

Lemma AsMatchPatterns_CompositePatternMatcher embedded (ms : list PatternMatcher) :
  AsMatchPatterns (CompositePatternMatcher embedded ms) = collect AsMatchPatterns ms [].
Proof. reflexivity. Qed.

(** C8. For every path and every directory hint, [EmptyMatcher.Matches]
    returns [(false, nil)]. *)
Theorem EmptyMatcher_Matches (f : string) (isDir : bool) :
  Matches EmptyMatcher f isDir = Returns (false, nil).
Proof. reflexivity. Qed.

(** C7. [NewCompositeMatcher] of the empty list returns [EmptyMatcher],
    and the result behaves as [EmptyMatcher]: on every path and directory
    hint its [Matches] returns [(false, nil)]. *)
Theorem NewCompositeMatcher_empty :
  NewCompositeMatcher [] = EmptyMatcher ∧
  ∀ (f : string) (isDir : bool),
    Matches (NewCompositeMatcher []) f isDir = Matches EmptyMatcher f isDir ∧
    Matches (NewCompositeMatcher []) f isDir = Returns (false, nil).
Proof. split; [reflexivity|]. intros f isDir. split; reflexivity. Qed.

(** C5. [CompositePathMatcher.Matches] is a short-circuit OR over the
    constituents in construction order. When the constituents before [t]
    all return [(false, nil)]: if [t] matches the result is [(true, nil)],
    and if [t] returns an error the result is [false] with that error;
    in both cases whatever follows [t] plays no part, be it a constituent
    that would match, fail or panic. When every constituent returns
    [(false, nil)] the result is [(false, nil)]. *)
Theorem CompositePathMatcher_Matches_short_circuit
    (ms : list PathMatcher) (f : string) (isDir : bool) :
  (∀ pre t post,
     ms = pre ++ t :: post →
     Forall (λ u, Matches u f isDir = Returns (false, nil)) pre →
     (Matches t f isDir = Returns (true, nil) →
      Matches (CompositePathMatcher ms) f isDir = Returns (true, nil)) ∧
     (∀ ret e, Matches t f isDir = Returns (ret, Some e) →
      Matches (CompositePathMatcher ms) f isDir = Returns (false, Some e))) ∧
  (Forall (λ u, Matches u f isDir = Returns (false, nil)) ms →
   Matches (CompositePathMatcher ms) f isDir = Returns (false, nil)).
Proof.
  rewrite Matches_CompositePathMatcher. split.
  - intros pre t post -> Hpre.
    rewrite (scan_skip (λ u, Matches u f isDir) pre (t :: post) Hpre).
    split.
    + intros Ht. by apply scan_hit.
    + intros ret e Ht. by eapply scan_error.
  - apply scan_none.
Qed.

(** C6. [CompositePatternMatcher.AsMatchPatterns] returns the
    concatenation, in the order of the constituents, of what
    [AsMatchPatterns] of each constituent returns: one flat sequence,
    nothing removed. *)
Theorem CompositePatternMatcher_AsMatchPatterns
    (embedded : list PathMatcher) (ms : list PatternMatcher) :
  AsMatchPatterns (CompositePatternMatcher embedded ms)
    = (λ outs, concat outs) <$> mapM AsMatchPatterns ms ∧
  ∀ outs : list (list string),
    Forall2 (λ m ps, AsMatchPatterns m = Returns ps) ms outs →
    AsMatchPatterns (CompositePatternMatcher embedded ms) = Returns (concat outs).
Proof.
  rewrite AsMatchPatterns_CompositePatternMatcher. split.
  - by rewrite collect_mapM.
  - intros outs Hall. by rewrite (collect_acc _ _ outs).
Qed.

(** ** [fileOrChildMatcher] and [PathSet] *)

Lemma index_true (paths : gmap string bool) (f : string) :
  index paths f = true ↔ paths !! f = Some true.
Proof.
  unfold index. destruct (paths !! f) as [[]|]; cbn; split; congruence.
Qed.

Lemma anyChild_true (paths : gmap string bool) (f : string) :
  anyChild paths f = true ↔ ∃ path v, paths !! path = Some v ∧ IsChild path f = true.
Proof.
  unfold anyChild. rewrite existsb_exists. split.
  - intros [[path v] [Hin Hchild]]. exists path, v. split; [|done].
    apply elem_of_map_to_list. by apply list_elem_of_In.
  - intros (path & v & Hlook & Hchild). exists (path, v). split; [|done].
    apply list_elem_of_In. by apply elem_of_map_to_list.
Qed.

Lemma fileOrChildMatcher_Matches_nil (paths : gmap string bool) f isDir :
  (fileOrChildMatcher_Matches paths f isDir).2 = nil.
Proof.
  unfold fileOrChildMatcher_Matches.
  destruct (index paths f); [done|]. by destruct (anyChild paths f).
Qed.

Lemma fileOrChildMatcher_Matches_true (paths : gmap string bool) f isDir :
  (fileOrChildMatcher_Matches paths f isDir).1 = true ↔
  paths !! f = Some true ∨ ∃ path v, paths !! path = Some v ∧ IsChild path f = true.
Proof.
  unfold fileOrChildMatcher_Matches.
  rewrite <- index_true, <- anyChild_true.
  destruct (index paths f); cbn; [tauto|].
  destruct (anyChild paths f); cbn; intuition congruence.
Qed.

(** What [NewRelativeFileOrChildMatcher] stores: the resolved paths, each
    with [true]. *)
Lemma pathMap_lookup (baseDir : string) (paths : list string) (acc : gmap string bool) k :
  foldl (λ pathMap path, <[resolve baseDir path := true]> pathMap) acc paths !! k
  = if decide (k ∈ resolve baseDir <$> paths) then Some true else acc !! k.
Proof.
  revert acc. induction paths as [|path paths IH]; intros acc; cbn.
  - rewrite decide_False; [done|]. apply not_elem_of_nil.
  - rewrite IH. destruct (decide (k ∈ resolve baseDir <$> paths)) as [Hin|Hnin].
    + rewrite decide_True; [done|]. by right.
    + destruct (decide (k = resolve baseDir path)) as [->|Hne].
      * rewrite decide_True; [|by left]. by rewrite lookup_insert_eq.
      * rewrite decide_False; [by rewrite lookup_insert_ne|].
        rewrite elem_of_cons. tauto.
Qed.

Lemma pathMap_lookup_Some (baseDir : string) (paths : list string) k (v : bool) :
  foldl (λ pathMap path, <[resolve baseDir path := true]> pathMap)
        (∅ : gmap string bool) paths !! k = Some v
  ↔ v = true ∧ ∃ path, path ∈ paths ∧ k = resolve baseDir path.
Proof.
  rewrite pathMap_lookup, lookup_empty. case_decide as Hin.
  - apply list_elem_of_fmap in Hin as (path & -> & Hin). split.
    + intros [= <-]. eauto.
    + by intros [-> _].
  - split; [done|]. intros [_ (path & Hpath & ->)].
    destruct Hin. by apply list_elem_of_fmap_2.
Qed.

Lemma NewRelativeFileOrChildMatcher_Matches (baseDir : string) (paths : list string) p isDir :
  ∃ b : bool,
    Matches (NewRelativeFileOrChildMatcher baseDir paths) p isDir = Returns (b, nil) ∧
    (b = true ↔
     ∃ path, path ∈ paths ∧
       (p = resolve baseDir path ∨ IsChild (resolve baseDir path) p = true)).
Proof.
  unfold NewRelativeFileOrChildMatcher. cbn.
  set (pathMap := foldl _ _ _).
  pose proof (fileOrChildMatcher_Matches_nil pathMap p isDir) as Hnil.
  pose proof (fileOrChildMatcher_Matches_true pathMap p isDir) as Htrue.
  destruct (fileOrChildMatcher_Matches pathMap p isDir) as [b err]. cbn in *. subst err.
  exists b. split; [done|]. rewrite Htrue. clear Htrue. subst pathMap. split.
  - intros [Heq | (k & v & Hk & Hchild)].
    + apply pathMap_lookup_Some in Heq as [_ (path & Hin & ->)]. eauto.
    + apply pathMap_lookup_Some in Hk as [_ (path & Hin & ->)]. eauto.
  - intros (path & Hin & [-> | Hchild]).
    + left. apply pathMap_lookup_Some. eauto.
    + right. exists (resolve baseDir path), true. split; [|done].
      apply pathMap_lookup_Some. eauto.
Qed.

Section AnyMatchLoop.
Variable call : string → Outcome (bool * error).

Lemma anyMatchLoop_skip (pre rest : list string) :
  Forall (λ x, call x = Returns (false, nil)) pre →
  anyMatchLoop call (pre ++ rest) = anyMatchLoop call rest.
Proof.
  induction 1 as [|x pre Hx _ IH]; [done|].
  cbn. rewrite Hx. cbn. exact IH.
Qed.

Lemma anyMatchLoop_hit (c : string) (rest : list string) :
  call c = Returns (true, nil) → anyMatchLoop call (c :: rest) = Returns (true, c, nil).
Proof. intros Hc. cbn. by rewrite Hc. Qed.

Lemma anyMatchLoop_error (c : string) (rest : list string) ret e :
  call c = Returns (ret, Some e) →
  anyMatchLoop call (c :: rest) = Returns (false, "", Some e).
Proof. intros Hc. cbn. by rewrite Hc. Qed.

Lemma anyMatchLoop_nil_error (cs : list string) :
  (∀ c, ∃ b, call c = Returns (b, nil)) →
  ∃ b c, anyMatchLoop call cs = Returns (b, c, nil) ∧ (b = true ∨ c = "").
Proof.
  intros Hcall. induction cs as [|c cs IH]; cbn.
  - exists false, "". by split; [|right].
  - destruct (Hcall c) as [b ->]. cbn. destruct b; [|exact IH].
    exists true, c. by split; [|left].
Qed.

End AnyMatchLoop.

(** C4. [AnyMatch] goes through the candidates in the order given.
    With [m] the matcher built from the paths and the base directory of
    the set: it returns [(true, c, nil)] for the first candidate [c] that
    [m] matches, and [(false, "", nil)] when [m] matches no candidate.
    Its loop returns the first error of the call it makes and stops there,
    whatever follows. *)
Theorem AnyMatch_first_match (ps : PathSet) (cs : list string) :
  let m := NewRelativeFileOrChildMatcher (BaseDirectory ps) (Paths ps) in
  (∀ pre c post,
     cs = pre ++ c :: post →
     Forall (λ x, Matches m x false = Returns (false, nil)) pre →
     Matches m c false = Returns (true, nil) →
     AnyMatch ps cs = Returns (true, c, nil)) ∧
  (Forall (λ x, Matches m x false = Returns (false, nil)) cs →
   AnyMatch ps cs = Returns (false, "", nil)) ∧
  (∀ (call : string → Outcome (bool * error)) pre c post ret e,
     Forall (λ x, call x = Returns (false, nil)) pre →
     call c = Returns (ret, Some e) →
     anyMatchLoop call (pre ++ c :: post) = Returns (false, "", Some e)).
Proof.
  intros m. unfold AnyMatch. fold m. split; [|split].
  - intros pre c post -> Hpre Hc.
    rewrite (anyMatchLoop_skip (λ path, Matches m path false) pre (c :: post) Hpre).
    by apply anyMatchLoop_hit.
  - intros Hall. rewrite <- (app_nil_r cs).
    by rewrite (anyMatchLoop_skip (λ path, Matches m path false) cs [] Hall).
  - intros call pre c post ret e Hpre Hc.
    rewrite (anyMatchLoop_skip call pre (c :: post) Hpre).
    by eapply anyMatchLoop_error.
Qed.

(** C9. [AnyMatch] never returns an error: it returns, and the error of
    its result is [nil]; the path of the result is [""] unless a candidate
    matched. This is so because [fileOrChildMatcher.Matches] returns a
    [nil] error on every input. *)
Theorem AnyMatch_nil_error (ps : PathSet) (cs : list string) :
  (∀ (paths : gmap string bool) f isDir,
     ∃ b, Matches (fileOrChildMatcher paths) f isDir = Returns (b, nil)) ∧
  ∃ (b : bool) (c : string),
    AnyMatch ps cs = Returns (b, c, nil) ∧ (b = true ∨ c = "").
Proof.
  split.
  - intros paths f isDir. cbn.
    pose proof (fileOrChildMatcher_Matches_nil paths f isDir) as Hnil.
    destruct (fileOrChildMatcher_Matches paths f isDir) as [b err]. cbn in Hnil.
    subst err. by exists b.
  - unfold AnyMatch. apply anyMatchLoop_nil_error. intros c.
    destruct (NewRelativeFileOrChildMatcher_Matches (BaseDirectory ps) (Paths ps) c false)
      as (b & Hb & _).
    by exists b.
Qed.

Lemma resolve_abs (baseDir path : string) : IsAbs path = true → resolve baseDir path = path.
Proof. unfold resolve. by intros ->. Qed.

Lemma pathMap_abs (baseDir baseDir' : string) (paths : list string) (acc : gmap string bool) :
  Forall (λ path, IsAbs path = true) paths →
  foldl (λ pathMap path, <[resolve baseDir path := true]> pathMap) acc paths
  = foldl (λ pathMap path, <[resolve baseDir' path := true]> pathMap) acc paths.
Proof.
  intros Habs. revert acc. induction Habs as [|path paths Hpath _ IH]; intros acc; cbn.
  - done.
  - by rewrite !(resolve_abs _ path Hpath), IH.
Qed.

(** C10. [NewRelativeFileOrChildMatcher] stores an absolute path as it
    is given: the base directory is not applied to it. Hence two matchers
    built from the same list of absolute paths and two base directories
    are the same matcher, and [Matches] of the one and of the other agree
    on every query. *)
Theorem NewRelativeFileOrChildMatcher_absolute (baseDir : string) (paths : list string) :
  (∀ path, path ∈ paths → IsAbs path = true →
     resolve baseDir path = path ∧
     ∃ pathMap, NewRelativeFileOrChildMatcher baseDir paths = fileOrChildMatcher pathMap ∧
                pathMap !! path = Some true) ∧
  (Forall (λ path, IsAbs path = true) paths →
   ∀ baseDir',
     NewRelativeFileOrChildMatcher baseDir paths = NewRelativeFileOrChildMatcher baseDir' paths ∧
     ∀ f isDir,
       Matches (NewRelativeFileOrChildMatcher baseDir paths) f isDir
       = Matches (NewRelativeFileOrChildMatcher baseDir' paths) f isDir).
Proof.
  split.
  - intros path Hin Habs. split; [by apply resolve_abs|].
    eexists. split; [reflexivity|].
    apply pathMap_lookup_Some. split; [done|].
    exists path. by rewrite resolve_abs.
  - intros Habs baseDir'.
    assert (NewRelativeFileOrChildMatcher baseDir paths
            = NewRelativeFileOrChildMatcher baseDir' paths) as Heq.
    { unfold NewRelativeFileOrChildMatcher. f_equal. by apply pathMap_abs. }
    split; [done|]. intros f isDir. by rewrite Heq.
Qed.

(** ** [NewGlobMatcher] *)

Lemma compileAll_ok (globs : list string) (gs ret : list Glob) :
  Forall2 (λ g c, Compile g = inl c) globs gs →
  compileAll globs ret = Returns (ret ++ gs).
Proof.
  intros Hall. revert ret.
  induction Hall as [|g c globs gs Hg _ IH]; intros ret; cbn.
  - by rewrite app_nil_r.
  - unfold MustCompile. rewrite Hg. cbn. rewrite IH. by rewrite <- app_assoc.
Qed.

Lemma compileAll_bad (pre : list string) g (post : list string) err (ret : list Glob) :
  Forall (λ p, ∃ c, Compile p = inl c) pre →
  Compile g = inr err →
  compileAll (pre ++ g :: post) ret = Panics err.
Proof.
  intros Hpre Hg. revert ret.
  induction Hpre as [|p pre [c Hp] _ IH]; intros ret; cbn; unfold MustCompile.
  - by rewrite Hg.
  - rewrite Hp. cbn. apply IH.
Qed.

(** C1, as the code has it. [NewGlobMatcher] has no error result. When a
    pattern is malformed it panics, with the error of [Compile] for the
    first such pattern; so it does for the pattern list [["["]] when
    [Compile] refuses ["["]. When every pattern compiles it returns the
    matcher of the compiled patterns, in the order given. *)
Theorem NewGlobMatcher_panics_on_malformed (globs : list string) :
  (∀ pre g post err,
     globs = pre ++ g :: post →
     Forall (λ p, ∃ c, Compile p = inl c) pre →
     Compile g = inr err →
     NewGlobMatcher globs = Panics err) ∧
  (∀ gs,
     Forall2 (λ g c, Compile g = inl c) globs gs →
     NewGlobMatcher globs = Returns (globMatcher gs)) ∧
  (∀ err, Compile "[" = inr err → NewGlobMatcher ["["] = Panics err).
Proof.
  unfold NewGlobMatcher. split; [|split].
  - intros pre g post err -> Hpre Hg. by rewrite (compileAll_bad pre g post err [] Hpre Hg).
  - intros gs Hall. by rewrite (compileAll_ok globs gs [] Hall).
  - intros err Hg. cbn. unfold MustCompile. by rewrite Hg.
Qed.

(** ** [NewCompositeMatcher] *)

Lemma fillPatternMatchers_other (pre : list PathMatcher) matches patterns
    (post : list PathMatcher) :
  fillPatternMatchers (pre ++ ofPatternMatcher (otherPatternMatcher matches patterns) :: post)
  = None.
Proof.
  induction pre as [|m pre IH]; cbn; [done|].
  destruct (assertCompositePatternMatcher m); [|done]. by rewrite IH.
Qed.

(** C2, where the code departs from it. The assertion in the loop of
    [NewCompositeMatcher] is to the struct [CompositePatternMatcher], not
    to the interface [PatternMatcher]. A list that holds a value of another
    type with [AsMatchPatterns] gives the plain [CompositePathMatcher],
    which has no [AsMatchPatterns]; so it is for two such values, each of
    them a [PatternMatcher]. *)
Theorem NewCompositeMatcher_other_PatternMatcher
    (pre post : list PathMatcher) matches patterns :
  let pm := ofPatternMatcher (otherPatternMatcher matches patterns) in
  is_Some (assertPatternMatcher pm) ∧
  NewCompositeMatcher (pre ++ pm :: post) = CompositePathMatcher (pre ++ pm :: post) ∧
  assertPatternMatcher (NewCompositeMatcher (pre ++ pm :: post)) = None ∧
  ∀ matches' patterns',
    let pm' := ofPatternMatcher (otherPatternMatcher matches' patterns') in
    Forall (λ m, is_Some (assertPatternMatcher m)) [pm; pm'] ∧
    assertPatternMatcher (NewCompositeMatcher [pm; pm']) = None.
Proof.
  intros pm.
  assert (∀ pre' post', NewCompositeMatcher (pre' ++ pm :: post')
                        = CompositePathMatcher (pre' ++ pm :: post')) as Hplain.
  { intros pre' post'. unfold NewCompositeMatcher.
    rewrite bool_decide_eq_false_2.
    - subst pm. by rewrite fillPatternMatchers_other.
    - rewrite length_app. cbn. lia. }
  split; [by eexists|]. split; [apply Hplain|]. split; [by rewrite Hplain|].
  intros matches' patterns' pm'. split.
  - repeat constructor; by eexists.
  - change [pm; pm'] with ([] ++ pm :: [pm']). by rewrite Hplain.
Qed.

End Properties.

(** ** On Unix paths, with the small pattern library *)

(** C3. With the paths of Unix: [Matches] of the matcher built from a
    base directory and a path list returns [true] exactly when the query
    equals a resolved member or is a descendant of one, and never an
    error. The descendant test goes by path segments: with base ["/r"] and
    member ["baz"], ["/r/baz"] and ["/r/baz/qux"] match and ["/r/bazinga"]
    does not. *)
Theorem fileOrChildMatcher_Matches_descendant {gl : GlobLib} :
  (∀ (baseDir : string) (paths : list string) (p : string) (isDir : bool),
     ∃ b : bool,
       Matches (NewRelativeFileOrChildMatcher baseDir paths) p isDir = Returns (b, nil) ∧
       (b = true ↔
        ∃ path, path ∈ paths ∧
          (p = resolve baseDir path ∨ Unix.IsChild (resolve baseDir path) p = true))) ∧
  (∀ isDir,
     Matches (NewRelativeFileOrChildMatcher "/r" ["baz"]) "/r/baz" isDir = Returns (true, nil) ∧
     Matches (NewRelativeFileOrChildMatcher "/r" ["baz"]) "/r/baz/qux" isDir
       = Returns (true, nil) ∧
     Matches (NewRelativeFileOrChildMatcher "/r" ["baz"]) "/r/bazinga" isDir
       = Returns (false, nil)) ∧
  Unix.IsChild "/a/b" "/a/bc" = false ∧
  Unix.IsChild "/a/b/" "/a/b/c" = Unix.IsChild "/a/b" "/a/b/c".
Proof.
  split; [|split; [|split]].
  - intros baseDir paths p isDir.
    exact (NewRelativeFileOrChildMatcher_Matches (os := Unix.ospath) baseDir paths p isDir).
  - intros isDir. repeat split; vm_compute; reflexivity.
  - vm_compute. reflexivity.
  - vm_compute. reflexivity.
Qed.

(** The list [["["]] makes [NewGlobMatcher] panic: it does not return,
    neither a matcher nor an error. *)
Lemma NewGlobMatcher_malformed_panics :
  NewGlobMatcher (gl := MiniGlob.globlib) ["["] = Panics "unexpected end of input" ∧
  ¬ ∃ m, NewGlobMatcher (gl := MiniGlob.globlib) ["["] = Returns m.
Proof.
  split; [vm_compute; reflexivity|]. intros [m Hm]. vm_compute in Hm. discriminate Hm.
Qed.

Lemma NewGlobMatcher_panics_on_malformed_witness :
  NewGlobMatcher (gl := MiniGlob.globlib) ["*.go"; "["; "x"] = Panics "unexpected end of input" ∧
  NewGlobMatcher (gl := MiniGlob.globlib) ["?"; "a"]
    = Returns (globMatcher [[MiniGlob.Single]; [MiniGlob.Text "a"]]) ∧
  NewGlobMatcher (gl := MiniGlob.globlib) ["["] = Panics "unexpected end of input".
Proof.
  split; [|split].
  - apply (proj1 (NewGlobMatcher_panics_on_malformed (gl := MiniGlob.globlib) ["*.go"; "["; "x"])
             ["*.go"] "[" ["x"]).
    + reflexivity.
    + constructor; [|constructor]. eexists. vm_compute. reflexivity.
    + vm_compute. reflexivity.
  - apply (proj1 (proj2 (NewGlobMatcher_panics_on_malformed (gl := MiniGlob.globlib) ["?"; "a"]))).
    repeat constructor.
  - apply (proj2 (proj2 (NewGlobMatcher_panics_on_malformed (gl := MiniGlob.globlib) []))).
    vm_compute. reflexivity.
Defined.

Lemma AnyMatch_first_match_witness :
  AnyMatch (gl := MiniGlob.globlib) (NewPathSet ["a"; "b"] "/r") ["/r/c"; "/r/b/x"]
    = Returns (true, "/r/b/x", nil) ∧
  AnyMatch (gl := MiniGlob.globlib) (NewPathSet ["a"; "b"] "/r") ["/r/c"; "/r/ab"]
    = Returns (false, "", nil) ∧
  anyMatchLoop (λ x, Returns (false, if String.eqb x "/x" then Some "stat" else nil))
    ["/r/c"; "/x"; "/r/a"] = Returns (false, "", Some "stat").
Proof.
  pose proof (AnyMatch_first_match (gl := MiniGlob.globlib) (NewPathSet ["a"; "b"] "/r"))
    as Hspec.
  split; [|split].
  - apply (proj1 (Hspec ["/r/c"; "/r/b/x"]) ["/r/c"] "/r/b/x" []).
    + reflexivity.
    + constructor; [|constructor]. vm_compute. reflexivity.
    + vm_compute. reflexivity.
  - apply (proj1 (proj2 (Hspec ["/r/c"; "/r/ab"]))).
    repeat constructor.
  - apply (proj2 (proj2 (Hspec [])) _ ["/r/c"] "/x" ["/r/a"] false "stat").
    + repeat constructor.
    + reflexivity.
Defined.

Lemma CompositePathMatcher_Matches_short_circuit_witness :
  let hit := otherPathMatcher (gl := MiniGlob.globlib) (λ _ _, Returns (true, nil)) in
  let failing := otherPathMatcher (gl := MiniGlob.globlib) (λ _ _, Returns (true, Some "stat")) in
  let panicking := otherPathMatcher (gl := MiniGlob.globlib) (λ _ _, Panics "not called") in
  Matches (CompositePathMatcher [emptyMatcher; hit; panicking]) "/a" false
    = Returns (true, nil) ∧
  Matches (CompositePathMatcher [emptyMatcher; failing; hit; panicking]) "/a" false
    = Returns (false, Some "stat") ∧
  Matches (CompositePathMatcher [emptyMatcher; fileMatcher ∅]) "/a" false
    = Returns (false, nil).
Proof.
  intros hit failing panicking. split; [|split].
  - destruct (CompositePathMatcher_Matches_short_circuit
                [emptyMatcher; hit; panicking] "/a" false) as [Hpre _].
    destruct (Hpre [emptyMatcher] hit [panicking]) as [Hhit _].
    + reflexivity.
    + repeat constructor.
    + apply Hhit. reflexivity.
  - destruct (CompositePathMatcher_Matches_short_circuit
                [emptyMatcher; failing; hit; panicking] "/a" false) as [Hpre _].
    destruct (Hpre [emptyMatcher] failing [hit; panicking]) as [_ Herr].
    + reflexivity.
    + repeat constructor.
    + apply (Herr true "stat"). reflexivity.
  - apply (proj2 (CompositePathMatcher_Matches_short_circuit
                    [emptyMatcher; fileMatcher ∅] "/a" false)).
    repeat constructor.
Defined.

Lemma CompositePatternMatcher_AsMatchPatterns_witness :
  let never := λ (_ : string) (_ : bool), Returns (false, nil) in
  let a := otherPatternMatcher (gl := MiniGlob.globlib) never (Returns ["*.tmp"; "a"]) in
  let b := CompositePatternMatcher [] [otherPatternMatcher never (Returns ["a"])] in
  let c := otherPatternMatcher (gl := MiniGlob.globlib) never (Returns ["b"; "*.tmp"]) in
  AsMatchPatterns (CompositePatternMatcher [] [a; b; c])
    = Returns ["*.tmp"; "a"; "a"; "b"; "*.tmp"].
Proof.
  intros never a b c.
  apply (proj2 (CompositePatternMatcher_AsMatchPatterns [] [a; b; c])
           [["*.tmp"; "a"]; ["a"]; ["b"; "*.tmp"]]).
  repeat constructor.
Defined.

Lemma NewRelativeFileOrChildMatcher_absolute_witness :
  (resolve "/r" "/a/b" = "/a/b" ∧
   ∃ pathMap,
     NewRelativeFileOrChildMatcher (gl := MiniGlob.globlib) "/r" ["/a/b"; "/c"]
       = fileOrChildMatcher pathMap ∧ pathMap !! "/a/b" = Some true) ∧
  NewRelativeFileOrChildMatcher (gl := MiniGlob.globlib) "/r" ["/a/b"; "/c"]
    = NewRelativeFileOrChildMatcher "/other" ["/a/b"; "/c"].
Proof.
  pose proof (NewRelativeFileOrChildMatcher_absolute
                (os := Unix.ospath) (gl := MiniGlob.globlib) "/r" ["/a/b"; "/c"]) as [Hone Hall].
  split.
  - apply Hone; [by left | reflexivity].
  - apply Hall. repeat constructor.
Defined.

(** * Further properties of the matchers *)

Section LoopsCompose.
Context {A : Type}.

(** What the loop of a composite can return: never [true] with an error. *)
Lemma scan_scanned (call : A → Outcome (bool * error)) (ms : list A) :
  scan call ms = Returns (true, nil) ∨ scan call ms = Returns (false, nil) ∨
  (∃ e, scan call ms = Returns (false, Some e)) ∨ (∃ v, scan call ms = Panics v).
Proof.
  induction ms as [|t ms IH]; cbn; [by right; left|].
  destruct (call t) as [[ret [e|]]|v]; cbn; [by right; right; left; eexists| |by do 3 right; eexists].
  destruct ret; [by left|exact IH].
Qed.

Lemma scan_app (call : A → Outcome (bool * error)) (l1 l2 : list A) :
  scan call (l1 ++ l2)
  = match scan call l1 with
    | Returns (false, None) => scan call l2
    | o => o
    end.
Proof.
  induction l1 as [|t l1 IH]; cbn; [done|].
  destruct (call t) as [[ret [e|]]|v]; cbn; [done| |done].
  destruct ret; [done|exact IH].
Qed.

(** A constituent that runs a loop of its own over [inner]. *)
Lemma scan_nested (call : A → Outcome (bool * error)) (t : A) (inner post : list A) :
  call t = scan call inner →
  scan call (t :: post) = scan call (inner ++ post).
Proof.
  intros Ht. rewrite scan_app. cbn. rewrite Ht.
  destruct (scan_scanned call inner) as [-> | [-> | [[e ->] | [v ->]]]]; reflexivity.
Qed.

Lemma scan_or (call : A → Outcome (bool * error)) (ms : list A) :
  (∀ t, t ∈ ms → ∃ b, call t = Returns (b, nil)) →
  ∃ b, scan call ms = Returns (b, nil) ∧
       (b = true ↔ ∃ t, t ∈ ms ∧ call t = Returns (true, nil)).
Proof.
  induction ms as [|t ms IH]; intros Hall; cbn.
  - exists false. split; [done|]. split; [done|].
    intros (t & Hin & _). by apply elem_of_nil in Hin.
  - destruct (Hall t) as [b Hb]; [by left|]. rewrite Hb. cbn. destruct b.
    + exists true. split; [done|]. split; [|done]. intros _. exists t. split; [by left|done].
    + destruct IH as (b & Hscan & Hiff); [intros u Hu; apply Hall; by right|].
      exists b. split; [done|]. rewrite Hiff. split.
      * intros (u & Hu & Hcall). exists u. split; [by right|done].
      * intros (u & Hu & Hcall). apply elem_of_cons in Hu as [->|Hu].
        -- congruence.
        -- eauto.
Qed.

Lemma collect_shift (call : A → Outcome (list string)) (ms : list A) (r r0 : list string) :
  collect call ms (r ++ r0) = (λ out, r ++ out) <$> collect call ms r0.
Proof.
  revert r0. induction ms as [|m ms IH]; intros r0; cbn; [done|].
  destruct (call m) as [ps|v]; cbn; [|done].
  by rewrite <- app_assoc, IH.
Qed.

Lemma collect_app (call : A → Outcome (list string)) (l1 l2 : list A) (r : list string) :
  collect call (l1 ++ l2) r = (r' ← collect call l1 r; collect call l2 r').
Proof.
  revert r. induction l1 as [|m l1 IH]; intros r; cbn; [done|].
  destruct (call m) as [ps|v]; cbn; [|done]. apply IH.
Qed.

Lemma collect_nested (call : A → Outcome (list string)) (m : A) (inner post : list A)
    (r : list string) :
  call m = collect call inner [] →
  collect call (m :: post) r = collect call (inner ++ post) r.
Proof.
  intros Hm. rewrite collect_app. cbn. rewrite Hm.
  pose proof (collect_shift call inner r []) as Hshift.
  rewrite app_nil_r in Hshift. rewrite Hshift.
  destruct (collect call inner []) as [ps|v]; reflexivity.
Qed.

End LoopsCompose.

Section Coverage.
Context {os : OsPath} {gl : GlobLib}.

(** ** Composites of composites *)

(** X1. A composite among the constituents of a composite can be replaced by
    its own constituents, in place: [Matches] returns the same on every
    query, errors and panics included. So it is for a
    [CompositePatternMatcher], whose [Matches] is the one of the composite
    it embeds. *)
Theorem CompositePathMatcher_Matches_flatten
    (pre inner post : list PathMatcher) (pms : list PatternMatcher) (f : string) (isDir : bool) :
  Matches (CompositePathMatcher (pre ++ CompositePathMatcher inner :: post)) f isDir
    = Matches (CompositePathMatcher (pre ++ inner ++ post)) f isDir ∧
  Matches (CompositePathMatcher
             (pre ++ ofPatternMatcher (CompositePatternMatcher inner pms) :: post)) f isDir
    = Matches (CompositePathMatcher (pre ++ inner ++ post)) f isDir.
Proof.
  rewrite !Matches_CompositePathMatcher.
  rewrite !(scan_app _ pre). split.
  - by rewrite (scan_nested _ (CompositePathMatcher inner) inner post).
  - by rewrite (scan_nested _ (ofPatternMatcher (CompositePatternMatcher inner pms)) inner post).
Qed.

(** X2. A constituent that returns [(false, nil)] on a query can be left out
    of the composite without a change of what [Matches] returns on that
    query; [EmptyMatcher] is such a constituent on every query. *)
Theorem CompositePathMatcher_Matches_drop_miss
    (pre post : list PathMatcher) (f : string) (isDir : bool) :
  (∀ t, Matches t f isDir = Returns (false, nil) →
        Matches (CompositePathMatcher (pre ++ t :: post)) f isDir
        = Matches (CompositePathMatcher (pre ++ post)) f isDir) ∧
  Matches (CompositePathMatcher (pre ++ EmptyMatcher :: post)) f isDir
  = Matches (CompositePathMatcher (pre ++ post)) f isDir.
Proof.
  assert (∀ t, Matches t f isDir = Returns (false, nil) →
               Matches (CompositePathMatcher (pre ++ t :: post)) f isDir
               = Matches (CompositePathMatcher (pre ++ post)) f isDir) as Hdrop.
  { intros t Ht. rewrite !Matches_CompositePathMatcher, !(scan_app _ pre).
    cbn. by rewrite Ht. }
  split; [exact Hdrop|]. by apply Hdrop.
Qed.

(** X3. When no constituent fails or panics on a query, the composite does
    neither, and it matches exactly when one of its constituents does:
    the order of the constituents then plays no part. *)
Theorem CompositePathMatcher_Matches_or (ms : list PathMatcher) (f : string) (isDir : bool) :
  (∀ t, t ∈ ms → ∃ b, Matches t f isDir = Returns (b, nil)) →
  ∃ b, Matches (CompositePathMatcher ms) f isDir = Returns (b, nil) ∧
       (b = true ↔ ∃ t, t ∈ ms ∧ Matches t f isDir = Returns (true, nil)).
Proof.
  intros Hall. rewrite Matches_CompositePathMatcher.
  by apply (scan_or (λ t, Matches t f isDir)).
Qed.

(** X4. Whatever [NewCompositeMatcher] returns for a list, [EmptyMatcher], the
    plain composite or the pattern composite, its [Matches] is the one of
    the plain composite of the list. *)
Theorem NewCompositeMatcher_Matches (ms : list PathMatcher) (f : string) (isDir : bool) :
  Matches (NewCompositeMatcher ms) f isDir = Matches (CompositePathMatcher ms) f isDir.
Proof.
  unfold NewCompositeMatcher. case_bool_decide as Hlen.
  - by destruct ms.
  - by destruct (fillPatternMatchers ms).
Qed.

Lemma assertCompositePatternMatcher_Some (m : PathMatcher) (pm : PatternMatcher) :
  assertCompositePatternMatcher m = Some pm → m = ofPatternMatcher pm.
Proof.
  destruct m as [| | | | | |[embedded ms|matches patterns]]; cbn; try done.
  by intros [= <-].
Qed.

Lemma fillPatternMatchers_spec (ms : list PathMatcher) :
  match fillPatternMatchers ms with
  | Some pms =>
      ms = ofPatternMatcher <$> pms ∧
      Forall (λ m, is_Some (assertCompositePatternMatcher m)) ms
  | None => ¬ Forall (λ m, is_Some (assertCompositePatternMatcher m)) ms
  end.
Proof.
  induction ms as [|m ms IH]; cbn; [by split|].
  destruct (assertCompositePatternMatcher m) as [pm|] eqn:Hm.
  - destruct (fillPatternMatchers ms) as [pms|].
    + destruct IH as [-> Hall]. split.
      * cbn. f_equal. by apply assertCompositePatternMatcher_Some.
      * constructor; [by rewrite Hm|done].
    + intros Hall. apply IH. by apply Forall_cons_1 in Hall as [_ Hall].
  - intros Hall. apply Forall_cons_1 in Hall as [[pm Hpm] _]. congruence.
Qed.

(** X5. The result of [NewCompositeMatcher] is a [PatternMatcher] exactly when
    the list is not empty and each of its elements is a
    [CompositePatternMatcher] struct. The pattern composite then holds the
    elements of the list, in their order, both as the matchers of the
    composite it embeds and as its pattern matchers. *)
Theorem NewCompositeMatcher_capability (ms : list PathMatcher) :
  (is_Some (assertPatternMatcher (NewCompositeMatcher ms)) ↔
   ms ≠ [] ∧ Forall (λ m, is_Some (assertCompositePatternMatcher m)) ms) ∧
  ∀ pm, NewCompositeMatcher ms = ofPatternMatcher pm →
        ∃ pms, pm = CompositePatternMatcher ms pms ∧ ms = ofPatternMatcher <$> pms.
Proof.
  pose proof (fillPatternMatchers_spec ms) as Hfill.
  unfold NewCompositeMatcher. case_bool_decide as Hlen.
  - destruct ms; [|done]. split; [|done]. split.
    + by intros [? ?].
    + by intros [? _].
  - assert (ms ≠ []) as Hne by (by intros ->).
    destruct (fillPatternMatchers ms) as [pms|]; cbn.
    + destruct Hfill as [Hms Hall]. split.
      * split; [done|]. by eexists.
      * intros pm [= <-]. by exists pms.
    + split; [|done]. split.
      * by intros [? ?].
      * by intros [_ ?].
Qed.

(** X6. A pattern composite among the pattern matchers of a pattern composite
    can be replaced by its own pattern matchers, in place:
    [AsMatchPatterns] returns the same. *)
Theorem CompositePatternMatcher_AsMatchPatterns_flatten
    (embedded embedded' : list PathMatcher) (pre inner post : list PatternMatcher) :
  AsMatchPatterns
    (CompositePatternMatcher embedded (pre ++ CompositePatternMatcher embedded' inner :: post))
  = AsMatchPatterns (CompositePatternMatcher embedded (pre ++ inner ++ post)).
Proof.
  rewrite !AsMatchPatterns_CompositePatternMatcher, !(collect_app _ pre).
  destruct (collect AsMatchPatterns pre []) as [r|v]; [|done].
  exact (collect_nested AsMatchPatterns (CompositePatternMatcher embedded' inner)
           inner post r eq_refl).
Qed.

End Coverage.

Section DeclaredHereProperties.
Context {os : OsPath} {gl : GlobLib}.

Lemma forallb_elem_of {A} (p : A → bool) (l : list A) :
  forallb p l = true → ∀ x, x ∈ l → p x = true.
Proof.
  intros Hall x Hx. apply (proj1 (forallb_forall p l) Hall). by apply list_elem_of_In.
Qed.

Lemma scan_total (f : string) (ms : list PathMatcher) :
  Forall (λ t, ∃ b, ∀ isDir, Matches t f isDir = Returns (b, nil)) ms →
  ∃ b, ∀ isDir, scan (λ t, Matches t f isDir) ms = Returns (b, nil).
Proof.
  induction 1 as [|t ms [b Hb] _ [b' IH]].
  - by exists false.
  - exists (b || b'). intros isDir. cbn. rewrite Hb. cbn.
    destruct b; [done|]. apply IH.
Qed.

(** X7. A matcher in which no value of a type declared elsewhere occurs
    never fails and never panics, and the directory hint plays no part in
    what it returns. *)
Theorem declaredHere_Matches (m : PathMatcher) (f : string) :
  declaredHere m = true →
  ∃ b, ∀ isDir, Matches m f isDir = Returns (b, nil).
Proof.
  revert m.
  apply (PathMatcher_induction
           (λ m, declaredHere m = true →
                 ∃ b, ∀ isDir, Matches m f isDir = Returns (b, nil))
           (λ pm, patternDeclaredHere pm = true →
                  ∃ b, ∀ isDir, PatternMatcher_Matches pm f isDir = Returns (b, nil))).
  - intros _. by exists false.
  - intros paths _. by exists (index paths f).
  - intros paths _. exists (index paths f || anyChild paths f). intros isDir. cbn.
    unfold fileOrChildMatcher_Matches. destruct (index paths f); [done|].
    by destruct (anyChild paths f).
  - intros globs _. exists (existsb (λ g, Match g f) globs). intros isDir. cbn.
    unfold globMatcher_Matches. by destruct (existsb _ globs).
  - intros ms IH Hms. cbn in Hms. apply scan_total.
    apply Forall_forall. intros t Ht.
    eapply Forall_forall in IH; [|exact Ht]. apply IH.
    by apply (forallb_elem_of _ _ Hms).
  - intros matches Hfalse. discriminate Hfalse.
  - intros pm IH Hpm. cbn in Hpm. destruct (IH Hpm) as [b Hb]. by exists b.
  - intros embedded ms IH _ Hpm. cbn in Hpm. apply andb_true_iff in Hpm as [Hemb _].
    apply scan_total.
    apply Forall_forall. intros t Ht.
    eapply Forall_forall in IH; [|exact Ht]. apply IH.
    by apply (forallb_elem_of _ _ Hemb).
  - intros matches patterns Hfalse. discriminate Hfalse.
Qed.

(** X8. A pattern matcher in which no value of a type declared elsewhere
    occurs has no pattern to give: [AsMatchPatterns] returns the empty
    list. *)
Theorem patternDeclaredHere_AsMatchPatterns (pm : PatternMatcher) :
  patternDeclaredHere pm = true → AsMatchPatterns pm = Returns [].
Proof.
  revert pm.
  apply (PatternMatcher_induction
           (λ _, True)
           (λ pm, patternDeclaredHere pm = true → AsMatchPatterns pm = Returns []));
    try done.
  intros embedded ms _ IH Hpm. cbn in Hpm. apply andb_true_iff in Hpm as [_ Hms].
  rewrite AsMatchPatterns_CompositePatternMatcher.
  assert (Forall (λ p, AsMatchPatterns p = Returns []) ms) as Hall.
  { apply Forall_forall. intros p Hp. eapply Forall_forall in IH; [|exact Hp].
    apply IH. by apply (forallb_elem_of _ _ Hms). }
  clear IH Hms. induction Hall as [|p ms Hp _ IHms]; cbn; [done|].
  rewrite Hp. cbn. exact IHms.
Qed.

End DeclaredHereProperties.

Section LeafProperties.
Context {os : OsPath} {gl : GlobLib}.

(** ** [NewGlobMatcher] and [globMatcher] *)

Lemma compile_each (globs : list string) :
  Forall (λ g, ∃ c, Compile g = inl c) globs →
  ∃ gs, Forall2 (λ g c, Compile g = inl c) globs gs.
Proof.
  induction 1 as [|g globs [c Hc] _ [gs IH]].
  - by exists [].
  - exists (c :: gs). by constructor.
Qed.

Lemma Forall2_elem_of_r {A B} (R : A → B → Prop) (l : list A) (k : list B) (y : B) :
  Forall2 R l k → y ∈ k → ∃ x, x ∈ l ∧ R x y.
Proof.
  induction 1 as [|x y' l k Hxy _ IH]; intros Hy.
  - by apply elem_of_nil in Hy.
  - apply elem_of_cons in Hy as [->|Hy].
    + exists x. split; [by left|done].
    + destruct (IH Hy) as (x' & Hx' & HR). exists x'. split; [by right|done].
Qed.

Lemma Forall2_elem_of_l {A B} (R : A → B → Prop) (l : list A) (k : list B) (x : A) :
  Forall2 R l k → x ∈ l → ∃ y, y ∈ k ∧ R x y.
Proof.
  induction 1 as [|x' y l k Hxy _ IH]; intros Hx.
  - by apply elem_of_nil in Hx.
  - apply elem_of_cons in Hx as [->|Hx].
    + exists y. split; [by left|done].
    + destruct (IH Hx) as (y' & Hy' & HR). exists y'. split; [by right|done].
Qed.

(** X9. When every pattern compiles, [NewGlobMatcher] returns a matcher that
    never fails, and that matches a path exactly when the path satisfies
    the compiled form of one of the patterns; with no pattern at all it
    matches nothing. *)
Theorem NewGlobMatcher_Matches (globs : list string) :
  Forall (λ g, ∃ c, Compile g = inl c) globs →
  ∃ m, NewGlobMatcher globs = Returns m ∧
       ∀ f isDir, ∃ b,
         Matches m f isDir = Returns (b, nil) ∧
         (b = true ↔ ∃ g c, g ∈ globs ∧ Compile g = inl c ∧ Match c f = true).
Proof.
  intros Hall. destruct (compile_each globs Hall) as [gs Hgs].
  exists (globMatcher gs). split.
  - unfold NewGlobMatcher. by rewrite (compileAll_ok globs gs [] Hgs).
  - intros f isDir. exists (existsb (λ g, Match g f) gs). split.
    + cbn. unfold globMatcher_Matches. by destruct (existsb _ gs).
    + rewrite existsb_exists. split.
      * intros (c & Hc & Hmatch). apply list_elem_of_In in Hc.
        destruct (Forall2_elem_of_r _ _ _ c Hgs Hc) as (g & Hg & Hcompile).
        by exists g, c.
      * intros (g & c & Hg & Hcompile & Hmatch).
        destruct (Forall2_elem_of_l _ _ _ g Hgs Hg) as (c' & Hc' & Hcompile').
        assert (c' = c) as -> by congruence.
        exists c. split; [by apply list_elem_of_In|done].
Qed.

(** ** [NewSimpleFileMatcher] and [fileMatcher] *)

Context {fa : FilepathAbs}.

Lemma insert_all_lookup (keys : list string) (acc : gmap string bool) (k : string) :
  foldl (λ pathMap key, <[key := true]> pathMap) acc keys !! k
  = if decide (k ∈ keys) then Some true else acc !! k.
Proof.
  revert acc. induction keys as [|key keys IH]; intros acc; cbn.
  - rewrite decide_False; [done|]. apply not_elem_of_nil.
  - rewrite IH. destruct (decide (k ∈ keys)) as [Hin|Hnin].
    + rewrite decide_True; [done|]. by right.
    + destruct (decide (k = key)) as [->|Hne].
      * rewrite decide_True; [|by left]. by rewrite lookup_insert_eq.
      * rewrite decide_False; [by rewrite lookup_insert_ne|].
        rewrite elem_of_cons. tauto.
Qed.

Lemma fillPathMap_ok (paths absolute : list string) (acc : gmap string bool) :
  Forall2 (λ path a, Abs path = inl a) paths absolute →
  fillPathMap paths acc
  = (fileMatcher (foldl (λ pathMap key, <[key := true]> pathMap) acc absolute), nil).
Proof.
  intros Hall. revert acc.
  induction Hall as [|path a paths absolute Ha _ IH]; intros acc; cbn; [done|].
  rewrite Ha. apply IH.
Qed.

Lemma fillPathMap_error (pre : list string) path (post : list string) err
    (acc : gmap string bool) :
  Forall (λ q, ∃ a, Abs q = inl a) pre →
  Abs path = inr err →
  fillPathMap (pre ++ path :: post) acc
  = (fileMatcher ∅, Some (Wrap err "NewSimplePathMatcher")).
Proof.
  intros Hpre Hpath. revert acc.
  induction Hpre as [|q pre [a Ha] _ IH]; intros acc; cbn.
  - by rewrite Hpath.
  - rewrite Ha. apply IH.
Qed.

(** X10. When [filepath.Abs] succeeds on every path, [NewSimpleFileMatcher]
    returns no error and a matcher that matches exactly the absolute forms
    of the paths: a path under one of them is not matched for that, and a
    path given twice counts once. *)
Theorem NewSimpleFileMatcher_matches_absolute (paths absolute : list string) :
  Forall2 (λ path a, Abs path = inl a) paths absolute →
  ∃ m, NewSimpleFileMatcher paths = (m, nil) ∧
       ∀ f isDir, Matches m f isDir = Returns (bool_decide (f ∈ absolute), nil).
Proof.
  intros Hall. unfold NewSimpleFileMatcher. rewrite (fillPathMap_ok _ _ _ Hall).
  eexists. split; [reflexivity|]. intros f isDir. cbn. unfold index.
  rewrite insert_all_lookup, lookup_empty.
  case_decide as Hin.
  - by rewrite bool_decide_eq_true_2.
  - by rewrite bool_decide_eq_false_2.
Qed.

(** X11. When [filepath.Abs] fails on a path, and on none before it,
    [NewSimpleFileMatcher] returns the error of that path wrapped under
    ["NewSimplePathMatcher"], whatever paths follow, together with the
    zero [fileMatcher], which holds none of the paths resolved before the
    failure and matches nothing. *)
Theorem NewSimpleFileMatcher_error
    (pre : list string) (path : string) (post : list string) (err : string) :
  Forall (λ q, ∃ a, Abs q = inl a) pre →
  Abs path = inr err →
  NewSimpleFileMatcher (pre ++ path :: post)
    = (fileMatcher ∅, Some ("NewSimplePathMatcher: " +:+ err)) ∧
  ∀ f isDir, Matches (NewSimpleFileMatcher (pre ++ path :: post)).1 f isDir
             = Returns (false, nil).
Proof.
  intros Hpre Hpath. unfold NewSimpleFileMatcher.
  rewrite (fillPathMap_error pre path post err ∅ Hpre Hpath). split; [done|].
  intros f isDir. cbn. unfold index. by rewrite lookup_empty.
Qed.

End LeafProperties.

Section PathSetProperties.
Context {os : OsPath} {gl : GlobLib}.

(** ** [PathSet] *)

Section Loop.
Variable call : string → Outcome (bool * error).
Hypothesis call_total : ∀ c, ∃ b, call c = Returns (b, nil).

Lemma anyMatchLoop_found (cs : list string) (c : string) :
  anyMatchLoop call cs = Returns (true, c, nil) →
  ∃ pre post, cs = pre ++ c :: post ∧
              Forall (λ x, call x = Returns (false, nil)) pre ∧
              call c = Returns (true, nil).
Proof.
  induction cs as [|x cs IH]; cbn; [done|].
  destruct (call_total x) as [b Hb]. rewrite Hb. cbn. destruct b.
  - intros [= <-]. exists [], cs. by repeat split.
  - intros Hrest. destruct (IH Hrest) as (pre & post & -> & Hpre & Hc).
    exists (x :: pre), post. repeat split; [by constructor|done].
Qed.

Lemma anyMatchLoop_not_found (cs : list string) (c : string) :
  anyMatchLoop call cs = Returns (false, c, nil) →
  c = "" ∧ Forall (λ x, call x = Returns (false, nil)) cs.
Proof.
  induction cs as [|x cs IH]; cbn.
  - intros [= <-]. by split.
  - destruct (call_total x) as [b Hb]. rewrite Hb. cbn. destruct b; [done|].
    intros Hrest. destruct (IH Hrest) as [-> Hall]. split; [done|]. by constructor.
Qed.

Lemma anyMatchLoop_some (cs : list string) :
  (∃ c, anyMatchLoop call cs = Returns (true, c, nil)) ↔
  ∃ c, c ∈ cs ∧ call c = Returns (true, nil).
Proof.
  split.
  - intros [c Hc]. destruct (anyMatchLoop_found cs c Hc) as (pre & post & -> & _ & Hcall).
    exists c. split; [|done]. apply elem_of_app. right. by left.
  - intros (c & Hin & Hcall). induction cs as [|x cs IH]; [by apply elem_of_nil in Hin|].
    cbn. destruct (call_total x) as [b Hb]. rewrite Hb. cbn. destruct b; [by exists x|].
    apply elem_of_cons in Hin as [->|Hin]; [congruence|]. by apply IH.
Qed.

End Loop.

Lemma NewRelativeFileOrChildMatcher_total (baseDir : string) (paths : list string) c isDir :
  ∃ b, Matches (NewRelativeFileOrChildMatcher baseDir paths) c isDir = Returns (b, nil).
Proof.
  destruct (NewRelativeFileOrChildMatcher_Matches baseDir paths c isDir) as (b & Hb & _).
  by exists b.
Qed.

(** X12. A set is [Empty] exactly when it was made from no path, and an empty
    set matches no candidate: [AnyMatch] returns [(false, "", nil)] for
    every list of candidates. *)
Theorem PathSet_Empty_AnyMatch (ps : PathSet) :
  (∀ paths baseDir, PathSet_Empty (NewPathSet paths baseDir) = true ↔ paths = []) ∧
  (PathSet_Empty ps = true → ∀ cs, AnyMatch ps cs = Returns (false, "", nil)).
Proof.
  split.
  - intros paths baseDir. unfold PathSet_Empty. cbn. rewrite bool_decide_eq_true.
    by destruct paths.
  - unfold PathSet_Empty. rewrite bool_decide_eq_true. intros Hlen cs.
    destruct ps as [paths baseDir]. cbn in Hlen. destruct paths; [|done].
    unfold AnyMatch. cbn. induction cs as [|c cs IH]; [done|]. exact IH.
Qed.

(** X13. What a result of [AnyMatch] tells. When it is [(true, c, nil)], the
    candidate [c] is in the list and is matched by the matcher of the set,
    and no candidate before it is. When it is [false], the path of the
    result is [""] and no candidate is matched. *)
Theorem AnyMatch_result (ps : PathSet) (cs : list string) :
  let m := NewRelativeFileOrChildMatcher (BaseDirectory ps) (Paths ps) in
  (∀ c, AnyMatch ps cs = Returns (true, c, nil) →
        ∃ pre post, cs = pre ++ c :: post ∧
                    Forall (λ x, Matches m x false = Returns (false, nil)) pre ∧
                    Matches m c false = Returns (true, nil)) ∧
  (∀ c, AnyMatch ps cs = Returns (false, c, nil) →
        c = "" ∧ Forall (λ x, Matches m x false = Returns (false, nil)) cs).
Proof.
  intros m. unfold AnyMatch. fold m. split; intros c Hc.
  - apply (anyMatchLoop_found (λ path, Matches m path false)); [|done].
    intros x. apply NewRelativeFileOrChildMatcher_total.
  - apply (anyMatchLoop_not_found (λ path, Matches m path false)); [|done].
    intros x. apply NewRelativeFileOrChildMatcher_total.
Qed.

(** X14. [AnyMatch] reports a match exactly when some candidate is a resolved
    path of the set or a child of one. *)
Theorem AnyMatch_some (ps : PathSet) (cs : list string) :
  (∃ c, AnyMatch ps cs = Returns (true, c, nil)) ↔
  ∃ c path, c ∈ cs ∧ path ∈ Paths ps ∧
            (c = resolve (BaseDirectory ps) path ∨
             IsChild (resolve (BaseDirectory ps) path) c = true).
Proof.
  unfold AnyMatch.
  rewrite (anyMatchLoop_some
             (λ path, Matches (NewRelativeFileOrChildMatcher (BaseDirectory ps) (Paths ps))
                              path false));
    [|intros x; apply NewRelativeFileOrChildMatcher_total].
  split.
  - intros (c & Hin & Hc).
    destruct (NewRelativeFileOrChildMatcher_Matches (BaseDirectory ps) (Paths ps) c false)
      as (b & Hb & Hiff).
    assert (b = true) as Htrue by congruence.
    apply Hiff in Htrue as (path & Hpath & Hor). by exists c, path.
  - intros (c & path & Hin & Hpath & Hor). exists c. split; [done|].
    destruct (NewRelativeFileOrChildMatcher_Matches (BaseDirectory ps) (Paths ps) c false)
      as (b & Hb & Hiff).
    rewrite Hb. assert (b = true) as -> by (apply Hiff; by exists path). done.
Qed.

(** ** [NewRelativeFileOrChildMatcher] *)

(** X15. The matcher depends on the paths given only as a set: two lists with
    the same members, in whatever order and however often, give the same
    matcher. *)
Theorem NewRelativeFileOrChildMatcher_same_members
    (baseDir : string) (paths paths' : list string) :
  (∀ path, path ∈ paths ↔ path ∈ paths') →
  NewRelativeFileOrChildMatcher baseDir paths = NewRelativeFileOrChildMatcher baseDir paths'.
Proof.
  intros Hsame. unfold NewRelativeFileOrChildMatcher. f_equal.
  apply map_eq. intros k. rewrite !pathMap_lookup.
  destruct (decide (k ∈ resolve baseDir <$> paths)) as [Hin|Hnin].
  - rewrite decide_True; [done|].
    apply list_elem_of_fmap in Hin as (path & -> & Hin).
    apply list_elem_of_fmap_2. by apply Hsame.
  - rewrite decide_False; [done|]. intros Hin. apply Hnin.
    apply list_elem_of_fmap in Hin as (path & -> & Hin).
    apply list_elem_of_fmap_2. by apply Hsame.
Qed.

(** X16. The matcher of two lists of paths put together returns, on every
    query, what the composite of the matchers of the two lists returns. *)
Theorem NewRelativeFileOrChildMatcher_app
    (baseDir : string) (paths1 paths2 : list string) (f : string) (isDir : bool) :
  Matches (NewRelativeFileOrChildMatcher baseDir (paths1 ++ paths2)) f isDir
  = Matches (CompositePathMatcher [NewRelativeFileOrChildMatcher baseDir paths1;
                                   NewRelativeFileOrChildMatcher baseDir paths2]) f isDir.
Proof.
  destruct (NewRelativeFileOrChildMatcher_Matches baseDir (paths1 ++ paths2) f isDir)
    as (b & Hb & Hiff).
  destruct (NewRelativeFileOrChildMatcher_Matches baseDir paths1 f isDir)
    as (b1 & Hb1 & Hiff1).
  destruct (NewRelativeFileOrChildMatcher_Matches baseDir paths2 f isDir)
    as (b2 & Hb2 & Hiff2).
  rewrite Matches_CompositePathMatcher. cbn -[NewRelativeFileOrChildMatcher Matches].
  rewrite Hb, Hb1. cbn -[NewRelativeFileOrChildMatcher Matches].
  assert (b = b1 || b2) as ->.
  { apply eq_true_iff_eq. rewrite orb_true_iff, Hiff, Hiff1, Hiff2. split.
    - intros (path & Hin & Hor). apply elem_of_app in Hin as [Hin|Hin]; eauto.
    - intros [(path & Hin & Hor)|(path & Hin & Hor)];
        exists path; (split; [|done]); apply elem_of_app; eauto. }
  destruct b1; [done|]. rewrite Hb2. cbn. by destruct b2.
Qed.

End PathSetProperties.

(** ** On Unix paths, with the small pattern library: the further properties *)

Lemma CompositePathMatcher_Matches_drop_miss_witness :
  let hit := otherPathMatcher (gl := MiniGlob.globlib) (λ _ _, Returns (true, nil)) in
  Matches (CompositePathMatcher ([globMatcher []] ++ fileMatcher ∅ :: [hit])) "/a" false
  = Matches (CompositePathMatcher ([globMatcher []] ++ [hit])) "/a" false.
Proof.
  intros hit.
  apply (proj1 (CompositePathMatcher_Matches_drop_miss [globMatcher []] [hit] "/a" false)).
  reflexivity.
Defined.

Lemma CompositePathMatcher_Matches_or_witness :
  ∃ b, Matches (gl := MiniGlob.globlib)
         (CompositePathMatcher [emptyMatcher; fileMatcher {["/a" := true]}]) "/a" false
       = Returns (b, nil) ∧
       (b = true ↔
        ∃ t, t ∈ [emptyMatcher; fileMatcher {["/a" := true]}] ∧
             Matches (gl := MiniGlob.globlib) t "/a" false = Returns (true, nil)).
Proof.
  apply CompositePathMatcher_Matches_or.
  intros t Ht. apply list_elem_of_In in Ht. simpl in Ht.
  destruct Ht as [<-|[<-|[]]]; eexists; vm_compute; reflexivity.
Defined.

Lemma NewCompositeMatcher_capability_witness :
  let leaf := CompositePatternMatcher (gl := MiniGlob.globlib) [emptyMatcher] [] in
  ∃ pms, CompositePatternMatcher [ofPatternMatcher leaf] [leaf]
         = CompositePatternMatcher [ofPatternMatcher leaf] pms ∧
         [ofPatternMatcher leaf] = ofPatternMatcher <$> pms.
Proof.
  intros leaf.
  apply (proj2 (NewCompositeMatcher_capability [ofPatternMatcher leaf])).
  reflexivity.
Defined.

Lemma declaredHere_Matches_witness :
  ∃ b, ∀ isDir,
    Matches (gl := MiniGlob.globlib)
      (CompositePathMatcher
         [emptyMatcher; fileOrChildMatcher {["/r" := true]};
          ofPatternMatcher (CompositePatternMatcher [globMatcher []] [])])
      "/r/x" isDir
    = Returns (b, nil).
Proof.
  apply declaredHere_Matches. reflexivity.
Defined.

Lemma patternDeclaredHere_AsMatchPatterns_witness :
  let leaf := CompositePatternMatcher (gl := MiniGlob.globlib) [] [] in
  AsMatchPatterns
    (CompositePatternMatcher [emptyMatcher] [leaf; CompositePatternMatcher [] [leaf; leaf]])
  = Returns [].
Proof.
  intros leaf. apply patternDeclaredHere_AsMatchPatterns. reflexivity.
Defined.

Lemma NewGlobMatcher_Matches_witness :
  ∃ m, NewGlobMatcher (gl := MiniGlob.globlib) ["*.go"; "a?"] = Returns m ∧
       ∀ f isDir, ∃ b,
         Matches m f isDir = Returns (b, nil) ∧
         (b = true ↔
          ∃ g c, g ∈ ["*.go"; "a?"] ∧ MiniGlob.Compile g = inl c ∧ MiniGlob.Match c f = true).
Proof.
  apply (NewGlobMatcher_Matches (gl := MiniGlob.globlib) ["*.go"; "a?"]).
  constructor; [|constructor; [|constructor]]; eexists; vm_compute; reflexivity.
Defined.

Lemma NewSimpleFileMatcher_matches_absolute_witness :
  ∃ m, NewSimpleFileMatcher (gl := MiniGlob.globlib) (fa := UnixAbs.inDirectory "/home/u")
         ["src"; "/etc/../x"; "src/."] = (m, nil) ∧
       ∀ f isDir, Matches m f isDir
                  = Returns (bool_decide (f ∈ ["/home/u/src"; "/x"; "/home/u/src"]), nil).
Proof.
  apply (NewSimpleFileMatcher_matches_absolute (fa := UnixAbs.inDirectory "/home/u")).
  constructor; [|constructor; [|constructor; [|constructor]]]; vm_compute; reflexivity.
Defined.

Lemma NewSimpleFileMatcher_error_witness :
  NewSimpleFileMatcher (gl := MiniGlob.globlib) (fa := UnixAbs.noDirectory "getwd: gone")
    (["/abs"] ++ "rel" :: ["/x"])
    = (fileMatcher ∅, Some "NewSimplePathMatcher: getwd: gone") ∧
  ∀ f isDir,
    Matches (NewSimpleFileMatcher (gl := MiniGlob.globlib)
               (fa := UnixAbs.noDirectory "getwd: gone") (["/abs"] ++ "rel" :: ["/x"])).1
      f isDir
    = Returns (false, nil).
Proof.
  apply (NewSimpleFileMatcher_error (fa := UnixAbs.noDirectory "getwd: gone")
           ["/abs"] "rel" ["/x"] "getwd: gone").
  - constructor; [|constructor]. eexists. vm_compute. reflexivity.
  - vm_compute. reflexivity.
Defined.

Lemma PathSet_Empty_AnyMatch_witness :
  AnyMatch (gl := MiniGlob.globlib) (NewPathSet [] "/r") ["/r"; "/r/a"]
  = Returns (false, "", nil).
Proof.
  apply (proj2 (PathSet_Empty_AnyMatch (NewPathSet [] "/r"))). reflexivity.
Defined.

Lemma AnyMatch_result_witness :
  ∃ pre post,
    ["/r/c"; "/r/b/x"; "/r/a"] = pre ++ "/r/b/x" :: post ∧
    Forall (λ x, Matches (gl := MiniGlob.globlib)
                   (NewRelativeFileOrChildMatcher "/r" ["a"; "b"]) x false
                 = Returns (false, nil)) pre ∧
    Matches (gl := MiniGlob.globlib)
      (NewRelativeFileOrChildMatcher "/r" ["a"; "b"]) "/r/b/x" false
    = Returns (true, nil).
Proof.
  apply (proj1 (AnyMatch_result (gl := MiniGlob.globlib)
                  (NewPathSet ["a"; "b"] "/r") ["/r/c"; "/r/b/x"; "/r/a"])).
  vm_compute. reflexivity.
Defined.

Lemma NewRelativeFileOrChildMatcher_same_members_witness :
  NewRelativeFileOrChildMatcher (gl := MiniGlob.globlib) "/r" ["a"; "b"; "a"]
  = NewRelativeFileOrChildMatcher "/r" ["b"; "a"].
Proof.
  apply NewRelativeFileOrChildMatcher_same_members.
  intros path. rewrite !elem_of_cons, !elem_of_nil. tauto.
Defined.
